(** * Jikka example [abc207_b.solver.cpp]: the solver and its entry point

    The C++ translation unit holds one arithmetic function,

      int64_t solve(int64_t A, int64_t B, int64_t C, int64_t D) {
          int64_t ans = -1;
          if (D*C - B > 0){
              ans = (A + D * C - B - 1) / (D*C - B);
          }
          return ans;
      }

    and a [main] that reads four integers from standard input, calls
    [solve] and prints the answer on a line of its own.

    The embedding below keeps the machine view of the code: an [int64_t]
    is an integer of [Z] normalised into the signed 64-bit range after
    every operation, and the one partial operation, signed division, is a
    function into an error type.  Signed overflow, which C++ leaves
    undefined, is given the wrap-around of two's complement hardware. *)

From Stdlib Require Import ZArith Lia Bool String Ascii.
From Stdlib Require Import Decimal DecimalString DecimalPos.

Local Open Scope string_scope.
Local Open Scope Z_scope.

(** ** Signed 64-bit integers *)

Module Int64.

Definition modulus : Z := 18446744073709551616.
Definition half_modulus : Z := 9223372036854775808.
Definition min_signed : Z := - 9223372036854775808.
Definition max_signed : Z := 9223372036854775807.

(** The values an [int64_t] can hold. *)
Definition in_range (z : Z) : Prop := min_signed <= z <= max_signed.

Definition in_rangeb (z : Z) : bool :=
  (min_signed <=? z) && (z <=? max_signed).

(** Two's complement normalisation: the representative of [z] modulo
    [2^64] that lies in the signed range. *)
Definition wrap (z : Z) : Z :=
  (z + half_modulus) mod modulus - half_modulus.

Definition add (x y : Z) : Z := wrap (x + y).
Definition sub (x y : Z) : Z := wrap (x - y).
Definition mul (x y : Z) : Z := wrap (x * y).

(** What the machine's signed division can go wrong with. *)
Inductive fault : Type :=
| DivisionByZero
| DivisionOverflow.

Inductive result (T : Type) : Type :=
| Ok (v : T)
| Fault (f : fault).

Arguments Ok {T} v.
Arguments Fault {T} f.

Definition ret {T : Type} (v : T) : result T := Ok v.

Definition bind {T U : Type} (m : result T) (k : T -> result U) : result U :=
  match m with
  | Ok v => k v
  | Fault f => Fault f
  end.

(** [x / y] on [int64_t]: the quotient truncated toward zero.  A zero
    divisor has no result, and neither has [INT64_MIN / -1], whose
    quotient is not representable. *)
Definition divs (x y : Z) : result Z :=
  if y =? 0 then Fault DivisionByZero
  else if (x =? min_signed) && (y =? -1) then Fault DivisionOverflow
  else Ok (wrap (Z.quot x y)).

End Int64.

Notation "x <- m ;; k" := (Int64.bind m (fun x => k))
  (at level 61, m at next level, right associativity).

(** ** The solver *)

(** [solve], statement by statement.  The literals [-1], [0] and [1] are
    converted to [int64_t] by the usual arithmetic conversions; the
    numerator associates to the left, as C++ parses it. *)
Definition solve (A B C D : Z) : Int64.result Z :=
  let ans := -1 in
  ans <- (if Int64.sub (Int64.mul D C) B >? 0
          then Int64.divs
                 (Int64.sub (Int64.sub (Int64.add A (Int64.mul D C)) B) 1)
                 (Int64.sub (Int64.mul D C) B)
          else Int64.ret ans) ;;
  Int64.ret ans.

(** ** The computation as the specification words it

    Over unbounded integers: with [denom = D*C - B], the answer is
    [ceilDiv A denom = (A + denom - 1) / denom] under truncating division
    when [denom > 0], and [-1] otherwise. *)
Definition spec_ceilDiv (a b : Z) : Z := Z.quot (a + b - 1) b.

Definition spec_solve (A B C D : Z) : Z :=
  let denom := D * C - B in
  if denom >? 0 then spec_ceilDiv A denom else -1.

(** The three intermediate values the specification asks the caller to
    keep representable. *)
Definition no_overflow (A B C D : Z) : Prop :=
  Int64.in_range (D * C) /\
  Int64.in_range (D * C - B) /\
  Int64.in_range (A + D * C - B - 1).

(** ** Standard input and output

    [std::cin] is a buffer of characters still to be read together with
    its fail bit; [std::cout] is the text written so far.  The two calls
    [sync_with_stdio(false)] and [cin.tie(nullptr)] change buffering only
    and leave no trace in what is read or written. *)

Definition newline : ascii := "010"%char.

(** [isspace] in the classic locale: space and the controls 9 to 13. *)
Definition is_space (c : ascii) : bool :=
  let n := N_of_ascii c in
  ((n =? 32) || ((9 <=? n) && (n <=? 13)))%N.

Definition is_digit (c : ascii) : bool :=
  let n := N_of_ascii c in
  ((48 <=? n) && (n <=? 57))%N.

Definition digit_value (c : ascii) : Z := Z.of_N (N_of_ascii c) - 48.

Fixpoint skip_ws (s : string) : string :=
  match s with
  | String c t => if is_space c then skip_ws t else s
  | EmptyString => EmptyString
  end.

(** Reads the longest run of digits, accumulating its value in base
    ten, and returns what follows it. *)
Fixpoint scan_digits (acc : Z) (s : string) : Z * string :=
  match s with
  | String c t =>
      if is_digit c then scan_digits (10 * acc + digit_value c) t
      else (acc, s)
  | EmptyString => (acc, s)
  end.

Definition starts_with_digit (s : string) : bool :=
  match s with
  | String c _ => is_digit c
  | EmptyString => false
  end.

Record istream : Type := { buffer : string; failbit : bool }.

(** [cin >> var] for an [int64_t] variable, whose content before the call
    is [var] ([None] while it is uninitialised).  A stream that has
    failed is left alone.  Otherwise leading white space is skipped; at
    the end of input the extraction fails and the variable is untouched;
    an optional sign and the digits that follow are converted, a field
    without digits failing with [0] stored and a value out of range
    failing with the nearest bound stored. *)
Definition extract_int64 (cin : istream) (var : option Z)
  : istream * option Z :=
  if failbit cin then (cin, var)
  else
    match skip_ws (buffer cin) with
    | EmptyString => ({| buffer := EmptyString; failbit := true |}, var)
    | String c t =>
        let negative := Ascii.eqb c "-" in
        let field :=
          if Ascii.eqb c "-" || Ascii.eqb c "+" then t else String c t in
        if starts_with_digit field then
          let (magnitude, rest) := scan_digits 0 field in
          let v := if negative then - magnitude else magnitude in
          if v <? Int64.min_signed then
            ({| buffer := rest; failbit := true |}, Some Int64.min_signed)
          else if Int64.max_signed <? v then
            ({| buffer := rest; failbit := true |}, Some Int64.max_signed)
          else
            ({| buffer := rest; failbit := false |}, Some v)
        else ({| buffer := field; failbit := true |}, Some 0)
    end.

(** [os << v] for an [int64_t]: the decimal numeral, with a leading
    minus sign for a negative value. *)
Definition show_int64 (v : Z) : string :=
  NilEmpty.string_of_int (Z.to_int v).

(** How a run of the program ends: normally, with the text on standard
    output and the exit code; with a hardware trap in the division; or
    outside what the language defines, when a variable is read that no
    extraction has written. *)
Inductive outcome : Type :=
| Exit (stdout : string) (code : Z)
| Trap (f : Int64.fault)
| Undefined.

Definition main (stdin : string) : outcome :=
  let cin := {| buffer := stdin; failbit := false |} in
  let (cin, A) := extract_int64 cin None in
  let (cin, B) := extract_int64 cin None in
  let (cin, C) := extract_int64 cin None in
  let (cin, D) := extract_int64 cin None in
  match A, B, C, D with
  | Some a, Some b, Some c, Some d =>
      match solve a b c d with
      | Int64.Ok ans => Exit (show_int64 ans ++ String newline EmptyString) 0
      | Int64.Fault f => Trap f
      end
  | _, _, _, _ => Undefined
  end.

(** *** Well-formed input *)

Fixpoint all_space (s : string) : bool :=
  match s with
  | String c t => is_space c && all_space t
  | EmptyString => true
  end.

(** White space between two numbers: at least one character. *)
Definition separator (s : string) : bool :=
  match s with
  | String _ _ => all_space s
  | EmptyString => false
  end.

(** A numeral: an optional sign followed by one digit or more and
    nothing else; [numeral_value] is the integer it denotes. *)
Definition numeral_value (t : string) : option Z :=
  match t with
  | EmptyString => None
  | String c u =>
      let negative := Ascii.eqb c "-" in
      let field :=
        if Ascii.eqb c "-" || Ascii.eqb c "+" then u else t in
      if starts_with_digit field then
        match scan_digits 0 field with
        | (magnitude, EmptyString) =>
            Some (if negative then - magnitude else magnitude)
        | (_, String _ _) => None
        end
      else None
  end.

(** The text after the last number: empty, or not starting with a digit
    that would extend the number. *)
Definition ends_number (rest : string) : bool :=
  negb (starts_with_digit rest).

(** ** Facts about the 64-bit arithmetic *)

Module Int64Facts.
Import Int64.

Lemma modulus_eq : modulus = 2 ^ 64.
Proof. reflexivity. Qed.

Lemma modulus_halves : modulus = 2 * half_modulus.
Proof. reflexivity. Qed.

Lemma in_rangeb_spec z : in_rangeb z = true <-> in_range z.
Proof. unfold in_rangeb, in_range. rewrite andb_true_iff. lia. Qed.

Lemma wrap_in_range z : in_range (wrap z).
Proof.
  unfold in_range, wrap, min_signed, max_signed.
  assert (H : 0 <= (z + half_modulus) mod modulus < modulus)
    by (apply Z.mod_pos_bound; reflexivity).
  unfold modulus, half_modulus in *. lia.
Qed.

Lemma wrap_small z : in_range z -> wrap z = z.
Proof.
  unfold in_range, wrap, min_signed, max_signed. intros Hz.
  rewrite Z.mod_small; unfold modulus, half_modulus; lia.
Qed.

(** [wrap] only depends on the residue modulo [2^64]. *)
Lemma wrap_congr x y : x mod modulus = y mod modulus -> wrap x = wrap y.
Proof.
  intros H. unfold wrap. f_equal.
  rewrite (Z.add_mod x), (Z.add_mod y), H by (unfold modulus; lia).
  reflexivity.
Qed.

Lemma wrap_mod z : wrap z mod modulus = z mod modulus.
Proof.
  unfold wrap.
  rewrite Zminus_mod, Z.mod_mod by (unfold modulus; lia).
  rewrite <- Zminus_mod. f_equal. lia.
Qed.

Lemma wrap_add_l x y : wrap (wrap x + y) = wrap (x + y).
Proof.
  apply wrap_congr.
  rewrite Z.add_mod, wrap_mod, <- Z.add_mod by (unfold modulus; lia).
  reflexivity.
Qed.

Lemma wrap_add_r x y : wrap (x + wrap y) = wrap (x + y).
Proof. rewrite Z.add_comm, wrap_add_l, Z.add_comm. reflexivity. Qed.

Lemma wrap_sub_l x y : wrap (wrap x - y) = wrap (x - y).
Proof. unfold Z.sub at 1. rewrite wrap_add_l. reflexivity. Qed.

Lemma wrap_sub_r x y : wrap (x - wrap y) = wrap (x - y).
Proof.
  apply wrap_congr.
  rewrite Zminus_mod, wrap_mod, <- Zminus_mod. reflexivity.
Qed.

Lemma wrap_idem z : wrap (wrap z) = wrap z.
Proof. apply wrap_small, wrap_in_range. Qed.

Lemma mul_comm x y : mul x y = mul y x.
Proof. unfold mul. rewrite Z.mul_comm. reflexivity. Qed.

(** Division by a positive divisor never faults and needs no
    normalisation. *)
Lemma divs_pos x y :
  in_range x -> 0 < y -> divs x y = Ok (Z.quot x y).
Proof.
  intros Hx Hy. unfold divs.
  destruct (Z.eqb_spec y 0) as [E | _]; [lia |].
  destruct (Z.eqb_spec y (-1)) as [E | _]; [lia |].
  rewrite andb_false_r. f_equal. apply wrap_small.
  unfold in_range, min_signed, max_signed in *.
  destruct (Z.le_gt_cases 0 x) as [Hp | Hn].
  - pose proof (Z.quot_pos x y Hp Hy).
    pose proof (Z.quot_le_upper_bound x y x Hy) as Hu.
    assert (x <= y * x) by nia. lia.
  - assert (Ho : Z.quot x y = - Z.quot (- x) y)
      by (rewrite Z.quot_opp_l by lia; lia).
    assert (Hp : 0 <= - x) by lia.
    pose proof (Z.quot_pos (- x) y Hp Hy).
    pose proof (Z.quot_le_upper_bound (- x) y (- x) Hy) as Hu.
    assert (- x <= y * - x) by nia. lia.
Qed.

End Int64Facts.

(** ** Truncating division used as a ceiling *)

Section CeilingByTruncation.

Variables a b : Z.
Hypothesis b_pos : 0 < b.

Lemma rem_nonneg_case n : 0 <= n -> 0 <= Z.rem n b < b.
Proof. intros Hn. apply Z.rem_bound_pos; lia. Qed.

Lemma rem_neg_case n : n < 0 -> - b < Z.rem n b <= 0.
Proof. intros Hn. apply Z.rem_bound_pos_neg; lia. Qed.

(** The quotient times the divisor always reaches [a]. *)
Lemma ceilDiv_reaches : a <= spec_ceilDiv a b * b.
Proof.
  unfold spec_ceilDiv.
  pose proof (Z.quot_rem' (a + b - 1) b) as E.
  destruct (Z.le_gt_cases 0 (a + b - 1)) as [Hn | Hn].
  - pose proof (rem_nonneg_case _ Hn). lia.
  - pose proof (rem_neg_case _ Hn). lia.
Qed.

(** It is the least such quotient exactly when the numerator is not
    negative or the division is exact. *)
Lemma ceilDiv_tight_iff :
  (spec_ceilDiv a b - 1) * b < a <->
  (0 <= a + b - 1 \/ Z.rem (a + b - 1) b = 0).
Proof.
  unfold spec_ceilDiv.
  pose proof (Z.quot_rem' (a + b - 1) b) as E.
  destruct (Z.le_gt_cases 0 (a + b - 1)) as [Hn | Hn].
  - pose proof (rem_nonneg_case _ Hn). split; [auto | lia].
  - pose proof (rem_neg_case _ Hn). split.
    + intros Hlt. right. lia.
    + intros [Hge | Hz]; lia.
Qed.

Lemma ceilDiv_least q :
  0 <= a + b - 1 -> a <= q * b -> spec_ceilDiv a b <= q.
Proof.
  intros Hn Hq.
  assert (Ht : (spec_ceilDiv a b - 1) * b < a)
    by (apply ceilDiv_tight_iff; auto).
  nia.
Qed.

End CeilingByTruncation.

(** ** The solver in closed form *)

Module SolveFacts.
Import Int64 Int64Facts.

Lemma denominator_eq B C D : sub (mul D C) B = wrap (D * C - B).
Proof. unfold sub, mul. apply wrap_sub_l. Qed.

Lemma numerator_eq A B C D :
  sub (sub (add A (mul D C)) B) 1 = wrap (A + D * C - B - 1).
Proof.
  unfold sub, add, mul.
  rewrite wrap_add_r, (wrap_sub_l (A + D * C) B), wrap_sub_l.
  reflexivity.
Qed.

(** The numerator the specification writes, [A + denom - 1], is the
    same 64-bit value as the one the code computes. *)
Lemma numerator_regrouped A B C D :
  sub (add A (sub (mul D C) B)) 1 = sub (sub (add A (mul D C)) B) 1.
Proof.
  rewrite numerator_eq. unfold sub, add, mul.
  rewrite (wrap_sub_l (D * C) B), wrap_add_r, wrap_sub_l.
  f_equal. lia.
Qed.

Lemma solve_eq A B C D :
  solve A B C D =
  if 0 <? wrap (D * C - B)
  then divs (wrap (A + D * C - B - 1)) (wrap (D * C - B))
  else Ok (-1).
Proof.
  unfold solve. rewrite numerator_eq, denominator_eq, Z.gtb_ltb.
  destruct (0 <? wrap (D * C - B)); [| reflexivity].
  destruct (divs _ _); reflexivity.
Qed.

Lemma solve_guard_true A B C D :
  0 < wrap (D * C - B) ->
  solve A B C D =
  Ok (Z.quot (wrap (A + D * C - B - 1)) (wrap (D * C - B))).
Proof.
  intros Hd. rewrite solve_eq.
  destruct (Z.ltb_spec 0 (wrap (D * C - B))) as [_ | Hle]; [| lia].
  apply divs_pos; [apply wrap_in_range | assumption].
Qed.

Lemma solve_guard_false A B C D :
  wrap (D * C - B) <= 0 -> solve A B C D = Ok (-1).
Proof.
  intros Hd. rewrite solve_eq.
  destruct (Z.ltb_spec 0 (wrap (D * C - B))) as [Hlt | _]; [lia |].
  reflexivity.
Qed.

(** Without overflow the 64-bit computation is the unbounded one. *)
Lemma solve_exact_pos A B C D :
  in_range (D * C - B) -> in_range (A + D * C - B - 1) ->
  0 < D * C - B ->
  solve A B C D = Ok (spec_ceilDiv A (D * C - B)).
Proof.
  intros Hd Hn Hpos.
  rewrite solve_guard_true by (rewrite wrap_small; assumption).
  rewrite !wrap_small by assumption.
  unfold spec_ceilDiv. do 2 f_equal. lia.
Qed.

Lemma solve_exact_nonpos A B C D :
  in_range (D * C - B) -> D * C - B <= 0 -> solve A B C D = Ok (-1).
Proof.
  intros Hd Hle. apply solve_guard_false. rewrite wrap_small; assumption.
Qed.

(** [spec_solve] is the source's expression read over [Z]. *)
Lemma spec_solve_source_form A B C D :
  spec_solve A B C D =
  if D * C - B >? 0 then Z.quot (A + D * C - B - 1) (D * C - B) else -1.
Proof.
  unfold spec_solve, spec_ceilDiv. cbv zeta.
  destruct (D * C - B >? 0); [| reflexivity].
  f_equal. lia.
Qed.

Lemma solve_exact A B C D :
  in_range (D * C - B) ->
  (0 < D * C - B -> in_range (A + D * C - B - 1)) ->
  solve A B C D = Ok (spec_solve A B C D).
Proof.
  intros Hd Hn. unfold spec_solve. cbv zeta. rewrite Z.gtb_ltb.
  destruct (Z.ltb_spec 0 (D * C - B)) as [Hpos | Hle].
  - apply solve_exact_pos; auto.
  - apply solve_exact_nonpos; assumption.
Qed.

(** The guard keeps the divisor positive, so the division has a result. *)
Lemma solve_returns A B C D :
  exists ans, solve A B C D = Ok ans /\ in_range ans.
Proof.
  destruct (Z.lt_ge_cases 0 (wrap (D * C - B))) as [Hpos | Hle].
  - rewrite (solve_guard_true A B C D Hpos).
    eexists. split; [reflexivity |].
    pose proof (divs_pos (wrap (A + D * C - B - 1)) (wrap (D * C - B))
                  (wrap_in_range _) Hpos) as Ed.
    unfold divs in Ed.
    destruct (wrap (D * C - B) =? 0); [discriminate |].
    destruct ((_ =? min_signed) && _); [discriminate |].
    injection Ed as Ed. rewrite <- Ed. apply wrap_in_range.
  - exists (-1). split; [apply solve_guard_false; assumption |].
    unfold in_range, min_signed, max_signed. lia.
Qed.

End SolveFacts.

(** ** Characters, numerals and extraction *)

Module StreamFacts.

Lemma digit_not_space c : is_digit c = true -> is_space c = false.
Proof.
  unfold is_digit, is_space. cbv zeta.
  rewrite andb_true_iff, N.leb_le, N.leb_le. intros [Hlo Hhi].
  apply orb_false_iff. split.
  - apply N.eqb_neq. lia.
  - apply andb_false_iff. right. apply N.leb_gt. lia.
Qed.

Lemma space_not_digit c : is_space c = true -> is_digit c = false.
Proof.
  intros Hs. destruct (is_digit c) eqn:Hd; [| reflexivity].
  apply digit_not_space in Hd. congruence.
Qed.

Lemma digit_not_sign c :
  is_digit c = true -> Ascii.eqb c "-" || Ascii.eqb c "+" = false.
Proof.
  intros Hd. apply orb_false_iff.
  split; apply Ascii.eqb_neq; intros ->; discriminate Hd.
Qed.

Lemma digit_not_minus c : is_digit c = true -> Ascii.eqb c "-" = false.
Proof.
  intros Hd. apply digit_not_sign, orb_false_iff in Hd. apply Hd.
Qed.

Lemma skip_ws_app ws s : all_space ws = true -> skip_ws (ws ++ s) = skip_ws s.
Proof.
  induction ws as [| c ws IH]; simpl; [reflexivity |].
  intros H. apply andb_true_iff in H as [Hc Hws].
  rewrite Hc. auto.
Qed.

Lemma separator_all_space ws : separator ws = true -> all_space ws = true.
Proof. destruct ws; [discriminate | auto]. Qed.

Lemma separator_ends_number ws s :
  separator ws = true -> ends_number (ws ++ s) = true.
Proof.
  destruct ws as [| c ws]; [discriminate |].
  simpl. intros H. apply andb_true_iff in H as [Hc _].
  unfold ends_number. simpl. rewrite (space_not_digit c Hc). reflexivity.
Qed.

Lemma scan_digits_stop acc rest :
  ends_number rest = true -> scan_digits acc rest = (acc, rest).
Proof.
  unfold ends_number. destruct rest as [| c t]; simpl; [reflexivity |].
  destruct (is_digit c); [discriminate | reflexivity].
Qed.

(** A field made of digits only is read whole, whatever non-digit text
    follows it. *)
Lemma scan_digits_app t : forall acc v rest,
  scan_digits acc t = (v, EmptyString) ->
  ends_number rest = true ->
  scan_digits acc (t ++ rest) = (v, rest).
Proof.
  induction t as [| c t IH]; simpl; intros acc v rest Hscan Hrest.
  - injection Hscan as <-. apply scan_digits_stop. assumption.
  - destruct (is_digit c); [| discriminate]. apply IH; assumption.
Qed.

Lemma starts_with_digit_app t rest :
  starts_with_digit t = true -> starts_with_digit (t ++ rest) = true.
Proof. destruct t; [discriminate | auto]. Qed.

(** The shape of a numeral: its first character, its digit field and
    its magnitude. *)
Lemma numeral_value_inv t z :
  numeral_value t = Some z ->
  exists c u magnitude,
    t = String c u /\
    let field := if Ascii.eqb c "-" || Ascii.eqb c "+" then u else t in
    starts_with_digit field = true /\
    scan_digits 0 field = (magnitude, EmptyString) /\
    z = (if Ascii.eqb c "-" then - magnitude else magnitude).
Proof.
  unfold numeral_value. destruct t as [| c u]; [discriminate |].
  intros H. cbv zeta in *.
  destruct (starts_with_digit _) eqn:Hd; [| discriminate].
  destruct (scan_digits 0 _) as [m [| c' r]] eqn:Hs; [| discriminate].
  injection H as <-. exists c, u, m. auto.
Qed.

Lemma numeral_not_space c u z :
  numeral_value (String c u) = Some z -> is_space c = false.
Proof.
  intros H. apply numeral_value_inv in H as (c' & u' & m & E & Hd & _ & _).
  injection E as <- <-. cbv zeta in Hd.
  destruct (Ascii.eqb_spec c "-") as [-> | _]; [reflexivity |].
  destruct (Ascii.eqb_spec c "+") as [-> | _]; [reflexivity |].
  simpl in Hd. apply digit_not_space. assumption.
Qed.

(** Extraction of one well-formed number: the white space before it and
    the numeral are consumed, the value is stored and the stream stays
    good. *)
Lemma extract_numeral ws t rest z var :
  all_space ws = true ->
  numeral_value t = Some z ->
  Int64.in_range z ->
  ends_number rest = true ->
  extract_int64 {| buffer := ws ++ t ++ rest; failbit := false |} var =
  ({| buffer := rest; failbit := false |}, Some z).
Proof.
  intros Hws Ht Hz Hrest.
  pose proof Ht as Hinv.
  apply numeral_value_inv in Hinv as (c & u & m & -> & Hd & Hs & ->).
  cbv zeta in Hd, Hs.
  unfold extract_int64. cbn [failbit buffer].
  rewrite skip_ws_app by assumption.
  cbn [append skip_ws]. rewrite (numeral_not_space c u _ Ht).
  assert (Hfield :
    (if Ascii.eqb c "-" || Ascii.eqb c "+" then u ++ rest
     else String c (u ++ rest)) =
    (if Ascii.eqb c "-" || Ascii.eqb c "+" then u else String c u) ++ rest)
    by (destruct (Ascii.eqb c "-" || Ascii.eqb c "+"); reflexivity).
  rewrite Hfield.
  rewrite (starts_with_digit_app _ rest Hd).
  rewrite (scan_digits_app _ _ _ rest Hs Hrest).
  unfold Int64.in_range in Hz.
  destruct (Z.ltb_spec (if Ascii.eqb c "-" then - m else m) Int64.min_signed);
    [lia |].
  destruct (Z.ltb_spec Int64.max_signed (if Ascii.eqb c "-" then - m else m));
    [lia |].
  reflexivity.
Qed.

End StreamFacts.

(** ** The printed numeral denotes the printed value *)

Module ShowFacts.
Import StreamFacts.

Lemma scan_uint_acc d : forall acc : positive,
  scan_digits (Zpos acc) (NilEmpty.string_of_uint d) =
  (Zpos (Pos.of_uint_acc d acc), EmptyString).
Proof.
  induction d; intros acc; cbn [NilEmpty.string_of_uint Pos.of_uint_acc];
    [reflexivity | ..];
    cbn [scan_digits]; change (is_digit _) with true; cbv iota;
    rewrite <- IHd; f_equal; unfold digit_value;
    simpl (N_of_ascii _); lia.
Qed.

Lemma scan_uint d :
  scan_digits 0 (NilEmpty.string_of_uint d) =
  (Z.of_N (Pos.of_uint d), EmptyString).
Proof.
  induction d; cbn [NilEmpty.string_of_uint Pos.of_uint];
    [reflexivity | ..];
    cbn [scan_digits]; change (is_digit _) with true; cbv iota;
    try (exact IHd); apply scan_uint_acc.
Qed.

Lemma uint_starts_with_digit d :
  d <> Nil -> starts_with_digit (NilEmpty.string_of_uint d) = true.
Proof. destruct d; [congruence | ..]; reflexivity. Qed.

Lemma uint_numeral d :
  d <> Nil ->
  numeral_value (NilEmpty.string_of_uint d) = Some (Z.of_N (Pos.of_uint d)).
Proof.
  intros Hd. pose proof (uint_starts_with_digit d Hd) as Hs.
  unfold numeral_value.
  destruct (NilEmpty.string_of_uint d) as [| c u] eqn:E; [discriminate |].
  cbv zeta. cbn [starts_with_digit] in Hs.
  rewrite (digit_not_sign c Hs), (digit_not_minus c Hs).
  cbn [starts_with_digit]. rewrite Hs, <- E, scan_uint. reflexivity.
Qed.

Lemma show_int64_numeral v : numeral_value (show_int64 v) = Some v.
Proof.
  unfold show_int64. destruct v as [| p | p]; [reflexivity | |].
  - cbn [Z.to_int NilEmpty.string_of_int].
    rewrite uint_numeral by apply DecimalPos.Unsigned.to_uint_nonnil.
    rewrite DecimalPos.Unsigned.of_to. reflexivity.
  - cbn [Z.to_int NilEmpty.string_of_int].
    pose proof (uint_starts_with_digit (Pos.to_uint p)
                  (DecimalPos.Unsigned.to_uint_nonnil p)) as Hs.
    unfold numeral_value. cbv zeta.
    change (Ascii.eqb "-" "-") with true. cbn [orb].
    rewrite Hs, scan_uint, DecimalPos.Unsigned.of_to. reflexivity.
Qed.

End ShowFacts.

(** ** Properties of [solve] *)

Import Int64.

(** C1, as the specification states it, fails: with [A = -3], [B = 0],
    [C = 3], [D = 1] the denominator is [3 > 0], the code returns
    [(-3 + 3 - 0 - 1) / 3 = 0] (the quotient [-1 / 3] truncates toward
    zero), and [(0 - 1) * 3 < -3] does not hold: [-1] would do as well. *)
Lemma solve_minimality_counterexample :
  1 * 3 - 0 > 0 /\
  solve (-3) 0 3 1 = Ok 0 /\
  ~ (0 * (1 * 3 - 0) >= -3 /\ (0 - 1) * (1 * 3 - 0) < -3).
Proof.
  split; [lia |]. split; [reflexivity |]. lia.
Qed.

(** C1, in the form that holds.  When [D*C - B > 0] and the three
    intermediate values [D*C], [D*C - B] and [A + D*C - B - 1] are
    representable, the answer times [D*C - B] reaches [A]; the answer is
    moreover the least such integer, [(ans - 1) * (D*C - B) < A], exactly
    when the numerator [A + D*C - B - 1] is not negative or is a multiple
    of [D*C - B]. *)
Theorem solve_ceiling_exactness (A B C D : Z) :
  no_overflow A B C D ->
  D * C - B > 0 ->
  exists ans,
    solve A B C D = Ok ans /\
    ans * (D * C - B) >= A /\
    ((ans - 1) * (D * C - B) < A <->
     (A + D * C - B - 1 >= 0 \/ Z.rem (A + D * C - B - 1) (D * C - B) = 0)).
Proof.
  intros (_ & Hd & Hn) Hpos.
  exists (spec_ceilDiv A (D * C - B)).
  assert (Hb : 0 < D * C - B) by lia.
  split; [apply SolveFacts.solve_exact_pos; assumption |].
  split.
  - pose proof (ceilDiv_reaches A (D * C - B) Hb). lia.
  - rewrite (ceilDiv_tight_iff A (D * C - B) Hb).
    replace (A + (D * C - B) - 1) with (A + D * C - B - 1) by lia.
    lia.
Qed.

Lemma solve_ceiling_exactness_witness :
  no_overflow (-5) 0 3 1 /\ 1 * 3 - 0 > 0 /\
  exists ans,
    solve (-5) 0 3 1 = Ok ans /\
    ans * (1 * 3 - 0) >= -5 /\
    ((ans - 1) * (1 * 3 - 0) < -5 <->
     (-5 + 1 * 3 - 0 - 1 >= 0 \/ Z.rem (-5 + 1 * 3 - 0 - 1) (1 * 3 - 0) = 0)).
Proof.
  assert (Hno : no_overflow (-5) 0 3 1)
    by (unfold no_overflow, in_range, min_signed, max_signed; lia).
  assert (Hpos : 1 * 3 - 0 > 0) by lia.
  split; [exact Hno |]. split; [exact Hpos |].
  exact (solve_ceiling_exactness (-5) 0 3 1 Hno Hpos).
Defined.

(** C2.  Whenever [D*C - B <= 0], zero included, [solve] returns the
    sentinel [-1]: both for the value of [D*C - B] that the program
    computes, and for the exact value when [D*C] and [D*C - B] are
    representable. *)
Theorem solve_sentinel (A B C D : Z) :
  (sub (mul D C) B <= 0 -> solve A B C D = Ok (-1)) /\
  (in_range (D * C) -> in_range (D * C - B) -> D * C - B <= 0 ->
   solve A B C D = Ok (-1)).
Proof.
  split.
  - rewrite SolveFacts.denominator_eq. apply SolveFacts.solve_guard_false.
  - intros _. apply SolveFacts.solve_exact_nonpos.
Qed.

Lemma solve_sentinel_witness :
  (sub (mul 1 1) 5 <= 0 /\ solve 1 5 1 1 = Ok (-1)) /\
  (in_range (0 * 0) /\ in_range (0 * 0 - 0) /\ 0 * 0 - 0 <= 0 /\
   solve 1 0 0 0 = Ok (-1)).
Proof.
  assert (H1 : sub (mul 1 1) 5 <= 0) by (vm_compute; discriminate).
  assert (H2 : in_range (0 * 0))
    by (unfold in_range, min_signed, max_signed; lia).
  assert (H3 : in_range (0 * 0 - 0))
    by (unfold in_range, min_signed, max_signed; lia).
  assert (H4 : 0 * 0 - 0 <= 0) by lia.
  split.
  - split; [exact H1 |]. exact (proj1 (solve_sentinel 1 5 1 1) H1).
  - split; [exact H2 |]. split; [exact H3 |]. split; [exact H4 |].
    exact (proj2 (solve_sentinel 1 0 0 0) H2 H3 H4).
Defined.

(** C3.  With [denom = D*C - B], if [denom > 0] then [solve] returns
    [(A + denom - 1) / denom] under truncating division: both when
    [denom] and the numerator are the 64-bit values the program holds,
    and for the exact values when they are representable. *)
Theorem solve_formula (A B C D : Z) :
  (let denom := sub (mul D C) B in
   denom > 0 ->
   solve A B C D = divs (sub (add A denom) 1) denom /\
   solve A B C D = Ok (Z.quot (sub (add A denom) 1) denom)) /\
  (let denom := D * C - B in
   no_overflow A B C D -> denom > 0 ->
   solve A B C D = Ok (Z.quot (A + denom - 1) denom)).
Proof.
  split; cbv zeta.
  - intros Hpos. rewrite SolveFacts.numerator_regrouped.
    rewrite SolveFacts.numerator_eq, SolveFacts.denominator_eq in *.
    rewrite Int64Facts.divs_pos by (apply Int64Facts.wrap_in_range || lia).
    split; apply SolveFacts.solve_guard_true; lia.
  - intros (_ & Hd & Hn) Hpos.
    apply SolveFacts.solve_exact_pos; (assumption || lia).
Qed.

Lemma solve_formula_witness :
  (sub (mul 3 2) 0 > 0 /\
   solve 100 0 2 3 =
     divs (sub (add 100 (sub (mul 3 2) 0)) 1) (sub (mul 3 2) 0) /\
   solve 100 0 2 3 =
     Ok (Z.quot (sub (add 100 (sub (mul 3 2) 0)) 1) (sub (mul 3 2) 0))) /\
  (no_overflow 100 0 2 3 /\ 3 * 2 - 0 > 0 /\
   solve 100 0 2 3 = Ok (Z.quot (100 + (3 * 2 - 0) - 1) (3 * 2 - 0))).
Proof.
  assert (H1 : sub (mul 3 2) 0 > 0) by reflexivity.
  assert (H2 : no_overflow 100 0 2 3)
    by (unfold no_overflow, in_range, min_signed, max_signed; lia).
  assert (H3 : 3 * 2 - 0 > 0) by lia.
  split.
  - split; [exact H1 |]. exact (proj1 (solve_formula 100 0 2 3) H1).
  - split; [exact H2 |]. split; [exact H3 |].
    exact (proj2 (solve_formula 100 0 2 3) H2 H3).
Defined.

(** C4.  The concrete scenarios: [solve(10,2,3,4) = 1],
    [solve(0,0,1,1) = 0], and [solve(1,0,0,0) = -1], a denominator of
    exactly zero counting as not positive. *)
Theorem solve_scenarios :
  solve 10 2 3 4 = Ok 1 /\
  solve 0 0 1 1 = Ok 0 /\
  solve 1 0 0 0 = Ok (-1).
Proof. repeat split; reflexivity. Qed.

(** C5.  For 64-bit inputs such that [D*C], [D*C - B] and
    [A + D*C - B - 1] are representable, the wrap-around evaluation of
    [solve] returns the value of the computation over unbounded
    integers. *)
Theorem solve_agrees_with_unbounded (A B C D : Z) :
  in_range A -> in_range B -> in_range C -> in_range D ->
  in_range (D * C) ->
  in_range (D * C - B) ->
  in_range (A + D * C - B - 1) ->
  solve A B C D = Ok (spec_solve A B C D).
Proof.
  intros _ _ _ _ _ Hd Hn. apply SolveFacts.solve_exact; auto.
Qed.

Lemma solve_agrees_with_unbounded_witness :
  in_range 100 /\ in_range 0 /\ in_range 2 /\ in_range 3 /\
  in_range (3 * 2) /\ in_range (3 * 2 - 0) /\
  in_range (100 + 3 * 2 - 0 - 1) /\
  solve 100 0 2 3 = Ok (spec_solve 100 0 2 3).
Proof.
  assert (R : forall z, in_rangeb z = true -> in_range z)
    by (intros z; apply Int64Facts.in_rangeb_spec).
  assert (HA : in_range 100) by (apply R; reflexivity).
  assert (HB : in_range 0) by (apply R; reflexivity).
  assert (HC : in_range 2) by (apply R; reflexivity).
  assert (HD : in_range 3) by (apply R; reflexivity).
  assert (H1 : in_range (3 * 2)) by (apply R; reflexivity).
  assert (H2 : in_range (3 * 2 - 0)) by (apply R; reflexivity).
  assert (H3 : in_range (100 + 3 * 2 - 0 - 1)) by (apply R; reflexivity).
  repeat (split; [assumption |]).
  exact (solve_agrees_with_unbounded 100 0 2 3 HA HB HC HD H1 H2 H3).
Defined.

(** C6.  [solve] is total: for all inputs it returns a 64-bit value and
    never faults.  Its one division runs under the guard [D*C - B > 0],
    so the divisor is not zero (nor [-1]). *)
Theorem solve_total (A B C D : Z) :
  (exists ans, solve A B C D = Ok ans /\ in_range ans) /\
  (forall f, solve A B C D <> Fault f) /\
  ((sub (mul D C) B >? 0) = true -> sub (mul D C) B <> 0).
Proof.
  pose proof (SolveFacts.solve_returns A B C D) as Hex.
  split; [exact Hex |]. split.
  - intros f Hf. destruct Hex as (ans & E & _). congruence.
  - intros Hg. rewrite Z.gtb_ltb in Hg. apply Z.ltb_lt in Hg. lia.
Qed.

(** C8.  On the sub-domain [A >= 0], with [D*C - B > 0] and the
    intermediate values representable, [solve] returns exactly the
    smallest integer [q] with [q * (D*C - B) >= A]. *)
Theorem solve_least_on_nonnegative (A B C D : Z) :
  A >= 0 ->
  D * C - B > 0 ->
  no_overflow A B C D ->
  exists ans,
    solve A B C D = Ok ans /\
    ans * (D * C - B) >= A /\
    (forall q, q * (D * C - B) >= A -> ans <= q).
Proof.
  intros HA Hpos (_ & Hd & Hn).
  assert (Hb : 0 < D * C - B) by lia.
  exists (spec_ceilDiv A (D * C - B)).
  split; [apply SolveFacts.solve_exact_pos; assumption |].
  split.
  - pose proof (ceilDiv_reaches A (D * C - B) Hb). lia.
  - intros q Hq. apply ceilDiv_least; lia.
Qed.

Lemma solve_least_on_nonnegative_witness :
  100 >= 0 /\ 3 * 2 - 0 > 0 /\ no_overflow 100 0 2 3 /\
  exists ans,
    solve 100 0 2 3 = Ok ans /\
    ans * (3 * 2 - 0) >= 100 /\
    (forall q, q * (3 * 2 - 0) >= 100 -> ans <= q).
Proof.
  assert (H1 : 100 >= 0) by lia.
  assert (H2 : 3 * 2 - 0 > 0) by lia.
  assert (H3 : no_overflow 100 0 2 3)
    by (unfold no_overflow, in_range, min_signed, max_signed; lia).
  repeat (split; [assumption |]).
  exact (solve_least_on_nonnegative 100 0 2 3 H1 H2 H3).
Defined.

(** C9.  The sentinel is ambiguous: [solve(-1,0,1,1)] has denominator
    [1 > 0] and returns [(-1 + 1 - 0 - 1) / 1 = -1], so a result of [-1]
    does not imply [D*C - B <= 0]. *)
Theorem sentinel_is_ambiguous :
  (1 * 1 - 0 > 0 /\ solve (-1) 0 1 1 = Ok (-1)) /\
  (exists A B C D, D * C - B > 0 /\ solve A B C D = Ok (-1)) /\
  ~ (forall A B C D, solve A B C D = Ok (-1) -> D * C - B <= 0).
Proof.
  assert (H : 1 * 1 - 0 > 0 /\ solve (-1) 0 1 1 = Ok (-1))
    by (split; [lia | reflexivity]).
  split; [exact H |]. split.
  - exists (-1), 0, 1, 1. exact H.
  - intros Hall. specialize (Hall (-1) 0 1 1 (proj2 H)). lia.
Qed.

(** C10.  [solve] is symmetric in its last two arguments: the result
    depends on [C] and [D] only through the product [D*C]. *)
Theorem solve_symmetric (A B C D : Z) :
  solve A B C D = solve A B D C.
Proof.
  unfold solve. rewrite (Int64Facts.mul_comm D C). reflexivity.
Qed.

(** ** The program *)

(** C7.  On an input made of four numerals denoting 64-bit integers
    [A], [B], [C], [D], separated by white space (any white space may
    come first, and anything that does not continue the last number may
    follow), the program writes one line, the decimal numeral of
    [solve(A,B,C,D)] followed by a newline, and exits with code 0. *)
Theorem main_prints_solution
    (ws0 tA ws1 tB ws2 tC ws3 tD rest : string) (A B C D : Z) :
  numeral_value tA = Some A -> numeral_value tB = Some B ->
  numeral_value tC = Some C -> numeral_value tD = Some D ->
  in_range A -> in_range B -> in_range C -> in_range D ->
  all_space ws0 = true ->
  separator ws1 = true -> separator ws2 = true -> separator ws3 = true ->
  ends_number rest = true ->
  exists ans,
    solve A B C D = Ok ans /\
    main (ws0 ++ tA ++ ws1 ++ tB ++ ws2 ++ tC ++ ws3 ++ tD ++ rest) =
      Exit (show_int64 ans ++ String newline EmptyString) 0 /\
    numeral_value (show_int64 ans) = Some ans.
Proof.
  intros HtA HtB HtC HtD HA HB HC HD Hw0 Hw1 Hw2 Hw3 Hrest.
  destruct (SolveFacts.solve_returns A B C D) as (ans & Hsolve & _).
  exists ans. split; [exact Hsolve |].
  split; [| apply ShowFacts.show_int64_numeral].
  unfold main.
  rewrite (StreamFacts.extract_numeral ws0 tA _ A None Hw0 HtA HA)
    by (apply StreamFacts.separator_ends_number; assumption).
  rewrite (StreamFacts.extract_numeral ws1 tB _ B None
             (StreamFacts.separator_all_space _ Hw1) HtB HB)
    by (apply StreamFacts.separator_ends_number; assumption).
  rewrite (StreamFacts.extract_numeral ws2 tC _ C None
             (StreamFacts.separator_all_space _ Hw2) HtC HC)
    by (apply StreamFacts.separator_ends_number; assumption).
  rewrite (StreamFacts.extract_numeral ws3 tD rest D None
             (StreamFacts.separator_all_space _ Hw3) HtD HD Hrest).
  rewrite Hsolve. reflexivity.
Qed.

Lemma main_prints_solution_witness :
  exists ans,
    solve 10 2 3 4 = Ok ans /\
    main ("" ++ "10" ++ " " ++ "2" ++ " " ++ "3" ++ " " ++ "4" ++
          String newline EmptyString) =
      Exit (show_int64 ans ++ String newline EmptyString) 0 /\
    numeral_value (show_int64 ans) = Some ans.
Proof.
  assert (R : forall z, in_rangeb z = true -> in_range z)
    by (intros z; apply Int64Facts.in_rangeb_spec).
  exact (main_prints_solution
           "" "10" " " "2" " " "3" " " "4" (String newline EmptyString)
           10 2 3 4
           eq_refl eq_refl eq_refl eq_refl
           (R 10 eq_refl) (R 2 eq_refl) (R 3 eq_refl) (R 4 eq_refl)
           eq_refl eq_refl eq_refl eq_refl eq_refl).
Defined.

(** ** Order and size of the quotient *)

Section CeilingOrder.

Variables b : Z.
Hypothesis b_pos : 0 < b.

Lemma ceilDiv_monotone a a' : a <= a' -> spec_ceilDiv a b <= spec_ceilDiv a' b.
Proof.
  intros Hle. unfold spec_ceilDiv. apply Z.quot_le_mono; lia.
Qed.

(** The quotient lies between [a] and zero, whatever the sign of [a]. *)
Lemma ceilDiv_between a : Z.min a 0 <= spec_ceilDiv a b <= Z.max a 0.
Proof.
  unfold spec_ceilDiv.
  pose proof (Z.quot_rem' (a + b - 1) b) as E.
  destruct (Z.le_gt_cases 0 (a + b - 1)) as [Hn | Hn].
  - pose proof (rem_nonneg_case b b_pos _ Hn) as Hr.
    assert (0 <= Z.quot (a + b - 1) b) by (apply Z.quot_pos; lia).
    destruct (Z.le_gt_cases a 0) as [Ha | Ha]; [| nia].
    assert (Z.quot (a + b - 1) b = 0) by nia. lia.
  - pose proof (rem_neg_case b b_pos _ Hn) as Hr.
    assert (Z.quot (a + b - 1) b <= 0) by nia.
    assert (a <= Z.quot (a + b - 1) b) by nia. lia.
Qed.

Lemma ceilDiv_zero_iff a : spec_ceilDiv a b = 0 <-> 1 - 2 * b < a <= 0.
Proof.
  unfold spec_ceilDiv.
  pose proof (Z.quot_rem' (a + b - 1) b) as E.
  destruct (Z.le_gt_cases 0 (a + b - 1)) as [Hn | Hn].
  - pose proof (rem_nonneg_case b b_pos _ Hn) as Hr. split; intros H.
    + rewrite H in E. lia.
    + assert (Z.quot (a + b - 1) b < 1) by nia.
      assert (-1 < Z.quot (a + b - 1) b) by nia. lia.
  - pose proof (rem_neg_case b b_pos _ Hn) as Hr. split; intros H.
    + rewrite H in E. lia.
    + assert (Z.quot (a + b - 1) b < 1) by nia.
      assert (-1 < Z.quot (a + b - 1) b) by nia. lia.
Qed.

End CeilingOrder.

(** A larger divisor never needs a larger quotient to reach a
    non-negative [a]. *)
Lemma ceilDiv_antitone_divisor a b b' :
  0 <= a -> 0 < b -> b <= b' -> spec_ceilDiv a b' <= spec_ceilDiv a b.
Proof.
  intros Ha Hb Hbb.
  apply ceilDiv_least; [lia | lia |].
  pose proof (ceilDiv_reaches a b Hb).
  pose proof (ceilDiv_between b Hb a). nia.
Qed.

(** ** Further properties of [solve] *)

(** X1.  [solve] is monotone in [A]: with [B], [C], [D] fixed and no
    overflow at either input, a larger [A] never gets a smaller answer
    (both answers are the sentinel when [D*C - B <= 0]). *)
Theorem solve_monotone_in_A (A A' B C D : Z) :
  no_overflow A B C D -> no_overflow A' B C D ->
  A <= A' ->
  exists r r',
    solve A B C D = Ok r /\ solve A' B C D = Ok r' /\ r <= r'.
Proof.
  intros (_ & Hd & Hn) (_ & _ & Hn') Hle.
  destruct (Z.lt_ge_cases 0 (D * C - B)) as [Hpos | Hnp].
  - exists (spec_ceilDiv A (D * C - B)), (spec_ceilDiv A' (D * C - B)).
    split; [apply SolveFacts.solve_exact_pos; assumption |].
    split; [apply SolveFacts.solve_exact_pos; assumption |].
    apply ceilDiv_monotone; assumption.
  - exists (-1), (-1).
    split; [apply SolveFacts.solve_exact_nonpos; assumption |].
    split; [apply SolveFacts.solve_exact_nonpos; assumption | lia].
Qed.

Lemma solve_monotone_in_A_witness :
  no_overflow 7 0 2 3 /\ no_overflow 100 0 2 3 /\ 7 <= 100 /\
  exists r r',
    solve 7 0 2 3 = Ok r /\ solve 100 0 2 3 = Ok r' /\ r <= r'.
Proof.
  assert (H1 : no_overflow 7 0 2 3)
    by (unfold no_overflow, in_range, min_signed, max_signed; lia).
  assert (H2 : no_overflow 100 0 2 3)
    by (unfold no_overflow, in_range, min_signed, max_signed; lia).
  assert (H3 : 7 <= 100) by lia.
  repeat (split; [assumption |]).
  exact (solve_monotone_in_A 7 100 0 2 3 H1 H2 H3).
Defined.

(** X2.  With [D*C - B > 0] and no overflow the answer lies between [A]
    and zero: [0 <= ans <= A] for [A >= 0] and [A <= ans <= 0] for
    [A <= 0].  It is zero exactly for [1 - 2*(D*C - B) < A <= 0]. *)
Theorem solve_between_A_and_zero (A B C D : Z) :
  no_overflow A B C D ->
  D * C - B > 0 ->
  exists ans,
    solve A B C D = Ok ans /\
    Z.min A 0 <= ans <= Z.max A 0 /\
    (ans = 0 <-> 1 - 2 * (D * C - B) < A <= 0).
Proof.
  intros (_ & Hd & Hn) Hpos.
  assert (Hb : 0 < D * C - B) by lia.
  exists (spec_ceilDiv A (D * C - B)).
  split; [apply SolveFacts.solve_exact_pos; assumption |].
  split; [apply ceilDiv_between | apply ceilDiv_zero_iff]; assumption.
Qed.

Lemma solve_between_A_and_zero_witness :
  no_overflow (-4) 0 3 1 /\ 1 * 3 - 0 > 0 /\
  exists ans,
    solve (-4) 0 3 1 = Ok ans /\
    Z.min (-4) 0 <= ans <= Z.max (-4) 0 /\
    (ans = 0 <-> 1 - 2 * (1 * 3 - 0) < -4 <= 0).
Proof.
  assert (H1 : no_overflow (-4) 0 3 1)
    by (unfold no_overflow, in_range, min_signed, max_signed; lia).
  assert (H2 : 1 * 3 - 0 > 0) by lia.
  repeat (split; [assumption |]).
  exact (solve_between_A_and_zero (-4) 0 3 1 H1 H2).
Defined.

(** X3.  For [A >= 0] and no overflow the sentinel is unambiguous:
    [solve] returns [-1] if and only if [D*C - B <= 0]. *)
Theorem solve_sentinel_iff_on_nonnegative (A B C D : Z) :
  A >= 0 ->
  no_overflow A B C D ->
  (solve A B C D = Ok (-1) <-> D * C - B <= 0).
Proof.
  intros HA (_ & Hd & Hn). split.
  - intros Hs. destruct (Z.lt_ge_cases 0 (D * C - B)) as [Hpos | Hnp]; [| lia].
    rewrite (SolveFacts.solve_exact_pos A B C D Hd Hn Hpos) in Hs.
    injection Hs as Hs.
    pose proof (ceilDiv_between (D * C - B) Hpos A). lia.
  - apply SolveFacts.solve_exact_nonpos. assumption.
Qed.

Lemma solve_sentinel_iff_on_nonnegative_witness :
  1 >= 0 /\ no_overflow 1 5 1 1 /\
  (solve 1 5 1 1 = Ok (-1) <-> 1 * 1 - 5 <= 0).
Proof.
  assert (H1 : 1 >= 0) by lia.
  assert (H2 : no_overflow 1 5 1 1)
    by (unfold no_overflow, in_range, min_signed, max_signed; lia).
  repeat (split; [assumption |]).
  exact (solve_sentinel_iff_on_nonnegative 1 5 1 1 H1 H2).
Defined.

(** X4.  For [A >= 0], raising [B] while [D*C - B] stays positive never
    lowers the answer: a smaller denominator needs at least as large a
    quotient. *)
Theorem solve_monotone_in_B (A B B' C D : Z) :
  A >= 0 ->
  no_overflow A B C D -> no_overflow A B' C D ->
  B <= B' ->
  D * C - B' > 0 ->
  exists r r',
    solve A B C D = Ok r /\ solve A B' C D = Ok r' /\ r <= r'.
Proof.
  intros HA (_ & Hd & Hn) (_ & Hd' & Hn') Hle Hpos'.
  exists (spec_ceilDiv A (D * C - B)), (spec_ceilDiv A (D * C - B')).
  split; [apply SolveFacts.solve_exact_pos; (assumption || lia) |].
  split; [apply SolveFacts.solve_exact_pos; (assumption || lia) |].
  apply ceilDiv_antitone_divisor; lia.
Qed.

Lemma solve_monotone_in_B_witness :
  100 >= 0 /\ no_overflow 100 0 2 3 /\ no_overflow 100 4 2 3 /\
  0 <= 4 /\ 3 * 2 - 4 > 0 /\
  exists r r',
    solve 100 0 2 3 = Ok r /\ solve 100 4 2 3 = Ok r' /\ r <= r'.
Proof.
  assert (H1 : 100 >= 0) by lia.
  assert (H2 : no_overflow 100 0 2 3)
    by (unfold no_overflow, in_range, min_signed, max_signed; lia).
  assert (H3 : no_overflow 100 4 2 3)
    by (unfold no_overflow, in_range, min_signed, max_signed; lia).
  assert (H4 : 0 <= 4) by lia.
  assert (H5 : 3 * 2 - 4 > 0) by lia.
  repeat (split; [assumption |]).
  exact (solve_monotone_in_B 100 0 4 2 3 H1 H2 H3 H4 H5).
Defined.

(** ** Failed extractions and the run of the program *)

Module ProgramFacts.
Import StreamFacts.


Lemma extract_leading_space ws s v :
  all_space ws = true ->
  extract_int64 {| buffer := ws ++ s; failbit := false |} v =
  extract_int64 {| buffer := s; failbit := false |} v.
Proof.
  intros Hws. unfold extract_int64. cbn [failbit buffer].
  rewrite skip_ws_app by assumption. reflexivity.
Qed.




(** Whatever an extraction stores is a 64-bit value. *)
Lemma extract_in_range cin cin' v :
  extract_int64 cin None = (cin', Some v) -> Int64.in_range v.
Proof.
  unfold extract_int64, Int64.in_range.
  destruct (failbit cin); [discriminate |].
  destruct (skip_ws (buffer cin)) as [| c t]; [discriminate |].
  cbv zeta.
  destruct (starts_with_digit _).
  - destruct (scan_digits 0 _) as [m rest].
    destruct (Z.ltb_spec (if Ascii.eqb c "-" then - m else m) Int64.min_signed).
    + intros E. injection E as _ <-.
      unfold Int64.min_signed, Int64.max_signed. lia.
    + destruct (Z.ltb_spec Int64.max_signed
                  (if Ascii.eqb c "-" then - m else m)).
      * intros E. injection E as _ <-.
        unfold Int64.min_signed, Int64.max_signed. lia.
      * intros E. injection E as _ <-. lia.
  - intros E. injection E as _ <-.
    unfold Int64.min_signed, Int64.max_signed. lia.
Qed.

(** The common part of the extractions of a numeral: white space and
    numeral are consumed and the value is compared with the bounds. *)
Lemma extract_numeral_any ws t rest z var :
  all_space ws = true ->
  numeral_value t = Some z ->
  ends_number rest = true ->
  extract_int64 {| buffer := ws ++ t ++ rest; failbit := false |} var =
  if z <? Int64.min_signed then
    ({| buffer := rest; failbit := true |}, Some Int64.min_signed)
  else if Int64.max_signed <? z then
    ({| buffer := rest; failbit := true |}, Some Int64.max_signed)
  else ({| buffer := rest; failbit := false |}, Some z).
Proof.
  intros Hws Ht Hrest.
  pose proof Ht as Hinv.
  apply numeral_value_inv in Hinv as (c & u & m & -> & Hd & Hs & ->).
  cbv zeta in Hd, Hs.
  rewrite extract_leading_space by assumption.
  unfold extract_int64. cbn [failbit buffer append skip_ws].
  rewrite (numeral_not_space c u _ Ht).
  assert (Hfield :
    (if Ascii.eqb c "-" || Ascii.eqb c "+" then u ++ rest
     else String c (u ++ rest)) =
    (if Ascii.eqb c "-" || Ascii.eqb c "+" then u else String c u) ++ rest)
    by (destruct (Ascii.eqb c "-" || Ascii.eqb c "+"); reflexivity).
  rewrite Hfield.
  rewrite (starts_with_digit_app _ rest Hd).
  rewrite (scan_digits_app _ _ _ rest Hs Hrest).
  reflexivity.
Qed.

(** A field without digits: the extraction fails and stores zero. *)
Lemma extract_no_digits ws c u var :
  all_space ws = true ->
  is_space c = false ->
  starts_with_digit
    (if Ascii.eqb c "-" || Ascii.eqb c "+" then u else String c u) = false ->
  exists cin',
    extract_int64 {| buffer := ws ++ String c u; failbit := false |} var =
    (cin', Some 0) /\ failbit cin' = true.
Proof.
  intros Hws Hc Hd.
  rewrite extract_leading_space by assumption.
  unfold extract_int64. cbn [failbit buffer skip_ws].
  rewrite Hc. cbv zeta. rewrite Hd.
  eexists. split; reflexivity.
Qed.




(** After three good numbers the program prints [solve] of whatever the
    fourth extraction stores, failed or not. *)
Lemma main_fourth_stored ws0 tA ws1 tB ws2 tC A B C tail cin' d :
  all_space ws0 = true -> numeral_value tA = Some A -> Int64.in_range A ->
  separator ws1 = true -> numeral_value tB = Some B -> Int64.in_range B ->
  separator ws2 = true -> numeral_value tC = Some C -> Int64.in_range C ->
  ends_number tail = true ->
  extract_int64 {| buffer := tail; failbit := false |} None = (cin', d) ->
  main (ws0 ++ tA ++ ws1 ++ tB ++ ws2 ++ tC ++ tail) =
  match d with
  | Some d =>
      match solve A B C d with
      | Int64.Ok ans => Exit (show_int64 ans ++ String newline EmptyString) 0
      | Int64.Fault f => Trap f
      end
  | None => Undefined
  end.
Proof.
  intros Hw0 HtA HA Hw1 HtB HB Hw2 HtC HC Ht E. unfold main.
  rewrite (extract_numeral ws0 tA _ A None Hw0 HtA HA)
    by (apply separator_ends_number; assumption).
  rewrite (extract_numeral ws1 tB _ B None
             (separator_all_space _ Hw1) HtB HB)
    by (apply separator_ends_number; assumption).
  rewrite (extract_numeral ws2 tC tail C None
             (separator_all_space _ Hw2) HtC HC Ht).
  rewrite E. reflexivity.
Qed.

End ProgramFacts.

(** ** Further properties of the program *)

(** X5.  Whatever the input, a run either reads an unwritten variable or
    exits with code 0 after printing one line, the numeral of
    [solve(A,B,C,D)] for 64-bit values [A], [B], [C], [D]; it never
    traps in the division and never exits with another code. *)
Theorem main_exits_zero_or_undefined (stdin : string) :
  main stdin = Undefined \/
  exists A B C D ans,
    in_range A /\ in_range B /\ in_range C /\ in_range D /\
    solve A B C D = Ok ans /\ in_range ans /\
    main stdin = Exit (show_int64 ans ++ String newline EmptyString) 0.
Proof.
  unfold main.
  destruct (extract_int64 _ None) as [c1 vA] eqn:EA.
  destruct (extract_int64 c1 None) as [c2 vB] eqn:EB.
  destruct (extract_int64 c2 None) as [c3 vC] eqn:EC.
  destruct (extract_int64 c3 None) as [c4 vD] eqn:ED.
  destruct vA as [a |]; [| left; reflexivity].
  destruct vB as [b |]; [| left; reflexivity].
  destruct vC as [c |]; [| left; reflexivity].
  destruct vD as [d |]; [| left; reflexivity].
  right.
  destruct (SolveFacts.solve_returns a b c d) as (ans & Hs & Hr).
  exists a, b, c, d, ans.
  pose proof (ProgramFacts.extract_in_range _ _ _ EA).
  pose proof (ProgramFacts.extract_in_range _ _ _ EB).
  pose proof (ProgramFacts.extract_in_range _ _ _ EC).
  pose proof (ProgramFacts.extract_in_range _ _ _ ED).
  repeat (split; [assumption |]). rewrite Hs. reflexivity.
Qed.





(** X8.  White space before the first number never matters: on every
    input, well formed or not, the run is the same with and without
    it. *)
Theorem main_ignores_leading_space (ws s : string) :
  all_space ws = true -> main (ws ++ s) = main s.
Proof.
  intros Hws. unfold main.
  rewrite ProgramFacts.extract_leading_space by assumption. reflexivity.
Qed.

Lemma main_ignores_leading_space_witness :
  all_space "  " = true /\ main ("  " ++ "10 2 3 4") = main "10 2 3 4".
Proof.
  split; [reflexivity |].
  exact (main_ignores_leading_space "  " "10 2 3 4" eq_refl).
Defined.

(** ** The characters of a printed number *)

Module ShowCharacters.
Import StreamFacts ShowFacts.

Lemma scan_digits_only s : forall acc v,
  scan_digits acc s = (v, EmptyString) ->
  forall c, List.In c (list_ascii_of_string s) -> is_digit c = true.
Proof.
  induction s as [| d s IH]; simpl; intros acc v Hscan c Hin; [easy |].
  destruct (is_digit d) eqn:Hd; [| discriminate].
  destruct Hin as [<- | Hin]; [assumption |].
  exact (IH _ _ Hscan c Hin).
Qed.

Lemma uint_digits_only d c :
  List.In c (list_ascii_of_string (NilEmpty.string_of_uint d)) ->
  is_digit c = true.
Proof. apply (scan_digits_only _ 0 _ (scan_uint d)). Qed.

Lemma show_int64_chars v c :
  List.In c (list_ascii_of_string (show_int64 v)) ->
  is_digit c = true \/ c = "-"%char.
Proof.
  unfold show_int64. destruct v as [| p | p];
    cbn [Z.to_int NilEmpty.string_of_int].
  - intros H. left. exact (uint_digits_only _ c H).
  - intros H. left. exact (uint_digits_only _ c H).
  - cbn [list_ascii_of_string List.In]. intros [<- | H]; [right; reflexivity |].
    left. exact (uint_digits_only _ c H).
Qed.

End ShowCharacters.

(** X9.  Printing and reading are inverse: what [cout << v] writes for a
    64-bit [v], put on the input after any white space and followed by
    text that does not continue the number, is read back by [cin >> x]
    as [v], with the stream still good and that text left unread. *)
Theorem extract_show_round_trip (ws rest : string) (v : Z) (var : option Z) :
  in_range v ->
  all_space ws = true ->
  ends_number rest = true ->
  extract_int64 {| buffer := ws ++ show_int64 v ++ rest; failbit := false |}
    var =
  ({| buffer := rest; failbit := false |}, Some v).
Proof.
  intros Hv Hws Hrest.
  apply StreamFacts.extract_numeral;
    [assumption | apply ShowFacts.show_int64_numeral | assumption
    | assumption].
Qed.

Lemma extract_show_round_trip_witness :
  in_range (-17) /\ all_space " " = true /\
  ends_number (String newline EmptyString) = true /\
  extract_int64
    {| buffer := " " ++ show_int64 (-17) ++ String newline EmptyString;
       failbit := false |} None =
  ({| buffer := String newline EmptyString; failbit := false |}, Some (-17)).
Proof.
  assert (H1 : in_range (-17))
    by (apply Int64Facts.in_rangeb_spec; reflexivity).
  split; [exact H1 |]. split; [reflexivity |]. split; [reflexivity |].
  exact (extract_show_round_trip " " (String newline EmptyString) (-17) None
           H1 eq_refl eq_refl).
Defined.

(** X10.  A printed number is made of decimal digits and at most a
    minus sign: it holds no white space, so the newline the program
    appends is the only one in its output. *)
Theorem show_int64_is_one_token (v : Z) (c : ascii) :
  List.In c (list_ascii_of_string (show_int64 v)) ->
  (is_digit c = true \/ c = "-"%char) /\
  is_space c = false /\ c <> newline.
Proof.
  intros Hin. pose proof (ShowCharacters.show_int64_chars v c Hin) as Hc.
  split; [exact Hc |].
  assert (Hs : is_space c = false).
  { destruct Hc as [Hd | ->];
      [apply StreamFacts.digit_not_space; assumption | reflexivity]. }
  split; [exact Hs |]. intros ->. discriminate Hs.
Qed.

Lemma show_int64_is_one_token_witness :
  List.In "7"%char (list_ascii_of_string (show_int64 (-17))) /\
  (is_digit "7" = true \/ "7"%char = "-"%char) /\
  is_space "7" = false /\ "7"%char <> newline.
Proof.
  assert (H : List.In "7"%char (list_ascii_of_string (show_int64 (-17))))
    by (right; right; left; reflexivity).
  split; [exact H |].
  exact (show_int64_is_one_token (-17) "7" H).
Defined.

(** X11.  The fourth extraction is not checked either.  After three good
    numbers, a fourth field without digits is taken as [0], a fourth
    numeral above the 64-bit range as [INT64_MAX] and one below it as
    [INT64_MIN]: the program still prints the answer for that value and
    exits with code 0. *)
Theorem main_unchecked_fourth_number
    (ws0 tA ws1 tB ws2 tC ws3 : string) (A B C : Z) :
  numeral_value tA = Some A -> numeral_value tB = Some B ->
  numeral_value tC = Some C ->
  in_range A -> in_range B -> in_range C ->
  all_space ws0 = true ->
  separator ws1 = true -> separator ws2 = true -> separator ws3 = true ->
  (forall c u,
     is_space c = false ->
     starts_with_digit
       (if Ascii.eqb c "-" || Ascii.eqb c "+" then u else String c u)
       = false ->
     exists ans,
       solve A B C 0 = Ok ans /\
       main (ws0 ++ tA ++ ws1 ++ tB ++ ws2 ++ tC ++ ws3 ++ String c u) =
         Exit (show_int64 ans ++ String newline EmptyString) 0) /\
  (forall tD z rest,
     numeral_value tD = Some z -> ends_number rest = true ->
     ~ in_range z ->
     let d := if z <? min_signed then min_signed else max_signed in
     exists ans,
       solve A B C d = Ok ans /\
       main (ws0 ++ tA ++ ws1 ++ tB ++ ws2 ++ tC ++ ws3 ++ tD ++ rest) =
         Exit (show_int64 ans ++ String newline EmptyString) 0).
Proof.
  intros HtA HtB HtC HA HB HC Hw0 Hw1 Hw2 Hw3.
  pose proof (StreamFacts.separator_all_space _ Hw3) as Hs3.
  split.
  - intros c u Hc Hd.
    destruct (ProgramFacts.extract_no_digits ws3 c u None Hs3 Hc Hd)
      as (cin' & E & _).
    destruct (SolveFacts.solve_returns A B C 0) as (ans & Hsolve & _).
    exists ans. split; [exact Hsolve |].
    rewrite (ProgramFacts.main_fourth_stored ws0 tA ws1 tB ws2 tC A B C
               (ws3 ++ String c u) cin' (Some 0)
               Hw0 HtA HA Hw1 HtB HB Hw2 HtC HC
               (StreamFacts.separator_ends_number _ _ Hw3) E).
    rewrite Hsolve. reflexivity.
  - intros tD z rest HtD Hrest Hout d.
    pose proof (ProgramFacts.extract_numeral_any ws3 tD rest z None
                  Hs3 HtD Hrest) as E.
    destruct (SolveFacts.solve_returns A B C d) as (ans & Hsolve & _).
    exists ans. split; [exact Hsolve |].
    assert (E' : exists cin',
               extract_int64
                 {| buffer := ws3 ++ tD ++ rest; failbit := false |} None =
               (cin', Some d)).
    { subst d. unfold in_range in Hout.
      destruct (Z.ltb_spec z min_signed); [eexists; exact E |].
      destruct (Z.ltb_spec max_signed z); [eexists; exact E | lia]. }
    destruct E' as (cin' & E').
    rewrite (ProgramFacts.main_fourth_stored ws0 tA ws1 tB ws2 tC A B C
               (ws3 ++ tD ++ rest) cin' (Some d)
               Hw0 HtA HA Hw1 HtB HB Hw2 HtC HC
               (StreamFacts.separator_ends_number _ _ Hw3) E').
    rewrite Hsolve. reflexivity.
Qed.

Lemma main_unchecked_fourth_number_witness :
  (exists ans,
     solve 10 2 3 0 = Ok ans /\
     main ("" ++ "10" ++ " " ++ "2" ++ " " ++ "3" ++ " " ++ "x") =
       Exit (show_int64 ans ++ String newline EmptyString) 0) /\
  (exists ans,
     solve 10 2 3 max_signed = Ok ans /\
     main ("" ++ "10" ++ " " ++ "2" ++ " " ++ "3" ++ " " ++
           "99999999999999999999" ++ "") =
       Exit (show_int64 ans ++ String newline EmptyString) 0).
Proof.
  assert (R : forall z, in_rangeb z = true -> in_range z)
    by (intros z; apply Int64Facts.in_rangeb_spec).
  assert (Hout : ~ in_range 99999999999999999999)
    by (unfold in_range, max_signed; lia).
  pose proof (main_unchecked_fourth_number
                "" "10" " " "2" " " "3" " " 10 2 3
                eq_refl eq_refl eq_refl
                (R 10 eq_refl) (R 2 eq_refl) (R 3 eq_refl)
                eq_refl eq_refl eq_refl eq_refl) as [H1 H2].
  split.
  - exact (H1 "x"%char "" eq_refl eq_refl).
  - exact (H2 "99999999999999999999" 99999999999999999999 ""
             eq_refl eq_refl Hout).
Defined.
